(** * Stratified Poisson estimation on a product graph (cvxstrat, examples/crime.py)

    The development embeds the stratum aggregation of [examples/crime.py]
    ([df_to_data]) together with the parts of the [cvxstrat] library that the
    script calls ([cartesian_product], [set_edge_weight], [Poisson.fit],
    [Poisson.anll]) and the [networkx] generators it uses, and proves the
    properties the specification states about them. *)

From Stdlib Require Import ZArith QArith Reals Lra.
From stdpp Require Import gmap list.

(** * Part I: the model *)

(** ** Nodes, graphs, errors *)

(** A node label.  The script keys its dictionaries by Python tuples of
    integers, [(lat, lon, week, day, hour)]; an integer label [i] of
    [nx.cycle_graph] or [nx.empty_graph] is represented by the one-element
    tuple [[i]]. *)
Abbreviation Node := (list Z).

(** A [networkx] graph: the nodes in insertion order (the order [G.nodes()]
    iterates in) and the edges, each with the value of its [weight]
    attribute.  A graph whose edges carry no weight yet is a [Graph unit]. *)
Record Graph (W : Type) := mkGraph {
  nodes : list Node;
  edges : list (Node * Node * W)
}.
Arguments mkGraph {W} _ _.
Arguments nodes {W} _.
Arguments edges {W} _.

(** The failures of the pipeline.  [KeyError] is Python's own exception,
    raised by [events[key] += 1]; the specification calls it KeyRangeError. *)
Inductive Error : Type :=
  | InvalidGraphError
  | KeyError (key : Node)
  | DomainError
  | InvalidConfigError.

Definition Result (A : Type) : Type := Error + A.

Definition ret {A} (a : A) : Result A := inr a.
Definition raise {A} (e : Error) : Result A := inl e.
Definition bind {A B} (m : Result A) (k : A → Result B) : Result B :=
  match m with
  | inl e => inl e
  | inr a => k a
  end.

Declare Scope result_scope.
Delimit Scope result_scope with result.
Notation "'let!' x ':=' m 'in' k" := (bind m (λ x, k))
  (at level 10, x name, m at level 100, k at level 200, only parsing)
  : result_scope.
Notation "'let!' ' p ':=' m 'in' k" :=
  (bind m (λ x, match x with p => k end))
  (at level 10, p pattern, m at level 100, k at level 200, only parsing)
  : result_scope.

(** ** The [networkx] generators used by the script *)

(** [nx.cycle_graph(n)]: nodes [0 .. n-1], edges [(i, i+1)] and the closing
    edge [(n-1, 0)]; for [n = 2] the closing edge is the edge [(0, 1)]
    again, which an undirected graph holds once. *)
Definition cycle_graph (n : nat) : Graph unit :=
  mkGraph ((λ i, [Z.of_nat i]) <$> seq 0 n)
          (if n =? 2 then [([0%Z], [1%Z], tt)]
           else (λ i, ([Z.of_nat i], [Z.of_nat (S i mod n)], tt)) <$> seq 0 n).

(** [nx.grid_2d_graph(m, n)]: nodes [(i, j)], each joined to [(i+1, j)] and
    to [(i, j+1)] where these exist. *)
Definition grid_2d_graph (m n : nat) : Graph unit :=
  mkGraph (i ← seq 0 m; j ← seq 0 n; [[Z.of_nat i; Z.of_nat j]])
          ((i ← seq 0 (pred m); j ← seq 0 n;
              [([Z.of_nat i; Z.of_nat j], [Z.of_nat (S i); Z.of_nat j], tt)]) ++
           (i ← seq 0 m; j ← seq 0 (pred n);
              [([Z.of_nat i; Z.of_nat j], [Z.of_nat i; Z.of_nat (S j)], tt)])).

(** [nx.empty_graph(n)]: [n] nodes and no edge. *)
Definition empty_graph {W} (n : nat) : Graph W :=
  mkGraph ((λ i, [Z.of_nat i]) <$> seq 0 n) [].

(** ** [cvxstrat.set_edge_weight] and [cvxstrat.cartesian_product] *)

(** Modelled from the spec: [cvxstrat.set_edge_weight] (the library is not
    part of the example script).  "Its weight is a single scalar applied
    uniformly to all its edges." *)
Definition set_edge_weight {V W} (G : Graph V) (w : W) : Graph W :=
  mkGraph (nodes G) ((λ e, (e.1.1, e.1.2, w)) <$> edges G).

(** Modelled from the spec: the node set of [cvxstrat.cartesian_product]
    (the library is not part of the example script).  One node of every
    factor, in factor order, the first factor varying slowest.  The tuple of a factor node is
    spliced into the product tuple: the script indexes the product of
    [G_location; G_week; G_day; G_hour] by [(lat, lon, week, day, hour)] and
    by [loc + (i, j, k)] with [loc] a node of the grid. *)
Fixpoint product_nodes {W} (gs : list (Graph W)) : list Node :=
  match gs with
  | [] => [[]]
  | g :: gs' => n ← nodes g; t ← product_nodes gs'; [n ++ t]
  end.

(** Modelled from the spec: the edge set of [cvxstrat.cartesian_product].
    Two product nodes are joined when they agree on every factor but one
    and that factor joins their two components; "the edge inherits that
    factor's weight". *)
Fixpoint product_edges {W} (gs : list (Graph W)) : list (Node * Node * W) :=
  match gs with
  | [] => []
  | g :: gs' =>
      (e ← edges g; t ← product_nodes gs'; [(e.1.1 ++ t, e.1.2 ++ t, e.2)]) ++
      (n ← nodes g; e ← product_edges gs'; [(n ++ e.1.1, n ++ e.1.2, e.2)])
  end.

Definition has_nodes {W} (g : Graph W) : bool :=
  match nodes g with
  | [] => false
  | _ :: _ => true
  end.

(** Modelled from the spec: [cvxstrat.cartesian_product] (the library is not
    part of the example script).  "Output node set = Cartesian product of
    the factors' node sets, node tuples ordered by the input factor order";
    "Must fail with InvalidGraphError if any input FactorGraph has zero
    nodes". *)
Definition cartesian_product {W} (gs : list (Graph W)) : Result (Graph W) :=
  if forallb has_nodes gs
  then ret (mkGraph (product_nodes gs) (product_edges gs))
  else raise InvalidGraphError.

(** ** [df_to_data] *)

(** A row of the data frame, with the five columns [df_to_data] reads.  The
    columns hold integer codes; [int(...)] of the script is the identity on
    them. *)
Record Row := mkRow {
  lat_bin : Z;
  lon_bin : Z;
  Week : Z;
  Dayofweek : Z;
  Hour : Z
}.

(** [key = (lat, lon, week, day, hour)] with [week = int(r.Week - 1)]. *)
Definition row_key (r : Row) : Node :=
  [lat_bin r; lon_bin r; (Week r - 1)%Z; Dayofweek r; Hour r].

Section Aggregate.
Context {Rec : Type} (key : Rec → Node).
Local Open Scope result_scope.

(** [for node in G.nodes(): events[node] = 0] *)
Definition init_events (ns : list Node) : gmap Node nat :=
  foldl (λ events node, <[node := 0]> events) ∅ ns.

(** [events[key] += 1]: reading [events[key]] raises [KeyError] when the
    key is absent. *)
Definition incr_event (events : gmap Node nat) (k : Node)
  : Result (gmap Node nat) :=
  match events !! k with
  | Some c => ret (<[k := c + 1]> events)
  | None => raise (KeyError k)
  end.

(** [for _, r in df.iterrows(): ... events[key] += 1] *)
Fixpoint count_events (events : gmap Node nat) (df : list Rec)
  : Result (gmap Node nat) :=
  match df with
  | [] => ret events
  | r :: df' =>
      let! events' := incr_event events (key r) in
      count_events events' df'
  end.

(** [for node in G.nodes(): Y.append(events[node]); Z.append(node)] *)
Fixpoint collect (events : gmap Node nat) (ns : list Node)
  : Result (list nat * list Node) :=
  match ns with
  | [] => ret ([], [])
  | node :: ns' =>
      match events !! node with
      | Some c =>
          let! '(Y, Zs) := collect events ns' in
          ret (c :: Y, node :: Zs)
      | None => raise (KeyError node)
      end
  end.

(** The body of [df_to_data], for any way [key] of computing a record's
    node; [G] is the global product graph of the script. *)
Definition aggregate {W} (G : Graph W) (df : list Rec)
  : Result (list nat * list Node) :=
  let! events := count_events (init_events (nodes G)) df in
  collect events (nodes G).
End Aggregate.

Definition df_to_data {W} (G : Graph W) (df : list Row)
  : Result (list nat * list Node) :=
  aggregate row_key G df.

(** ** Sizes of a product graph *)

Definition node_count {W} (g : Graph W) : nat := length (nodes g).
Definition edge_count {W} (g : Graph W) : nat := length (edges g).

Definition prod_list (l : list nat) : nat := foldr Nat.mul 1 l.

(** The list without its [i]-th element: "the other factors". *)
Definition others {A} (i : nat) (l : list A) : list A :=
  take i l ++ drop (S i) l.

(** "Σ over factors of (that factor's edge count × product of other factors'
    node counts)". *)
Definition product_edge_formula {W} (gs : list (Graph W)) : nat :=
  sum_list
    (imap (λ i g, edge_count g * prod_list (node_count <$> others i gs)) gs).

(** ** Contents of a count vector *)

(** The number of records of [df] whose key is [n]. *)
Definition occurrences {Rec} (key : Rec → Node) (n : Node) (df : list Rec)
  : nat :=
  length (filter (λ r, key r = n) df).

(** ** Node tuples of the factors *)

(** [arities] gives, factor by factor, the common length of the factor's
    node tuples: 1 for a cycle, 2 for a 2-D grid. *)
Definition has_arities {W} (arities : list nat) (gs : list (Graph W)) : Prop :=
  Forall2 (λ a g, Forall (λ p, length p = a) (nodes g)) arities gs.

(** A factor as [networkx] holds it: node tuples of one length [a], every
    node and every edge listed once, edges between nodes of the graph and
    no self-loop. *)
Definition simple_factor {W} (a : nat) (g : Graph W) : Prop :=
  Forall (λ p, length p = a) (nodes g) ∧
  NoDup (nodes g) ∧ NoDup (edges g) ∧
  Forall (λ e, e.1.1 ∈ nodes g ∧ e.1.2 ∈ nodes g ∧ e.1.1 ≠ e.1.2) (edges g).

(** ** [Poisson.anll]: the evaluation *)

Section PoissonModel.
Local Open Scope R_scope.
Implicit Types (theta : Node → R) (Y : list nat) (Zs : list Node).

(** Modelled from the spec: the Poisson term of one observation [y] of a
    stratum of rate [t], "-y·log θ + θ". *)
Definition poisson_nll (y : nat) (t : R) : R := - INR y * ln t + t.

Definition Rsum (l : list R) : R := foldr Rplus 0 l.

(** Modelled from the spec: the normalised term of one observation,
    "-y(n)·log θ(n) + θ(n) + log(y(n)!)". *)
Definition anll_term (y : nat) (t : R) : R :=
  poisson_nll y t + ln (INR (fact y)).

Local Open Scope result_scope.

(** Modelled from the spec: the terms of [cvxstrat.Poisson.anll], one per
    observation; "Fails with DomainError if any θ(n) ≤ 0 where
    y(n) > 0". *)
Fixpoint anll_terms theta Y Zs : Result (list R) :=
  match Y, Zs with
  | y :: Y', z :: Zs' =>
      if Rle_dec (theta z) 0 then
        if (0 <? y)%nat then raise DomainError
        else let! ts := anll_terms theta Y' Zs' in ret (anll_term y (theta z) :: ts)
      else let! ts := anll_terms theta Y' Zs' in ret (anll_term y (theta z) :: ts)
  | _, _ => ret []
  end.

(** Modelled from the spec: [cvxstrat.Poisson.anll] (the library is not
    part of the example script).  "Computes mean over nodes of
    [ -y(n)·log θ(n) + θ(n) + log(y(n)!) ]". *)
Definition anll theta Y Zs : Result R :=
  let! ts := anll_terms theta Y Zs in
  ret (Rsum ts / INR (length ts))%R.
End PoissonModel.

(** ** [Poisson.fit]: the iteration *)

(** [kwargs = dict(rel_tol=1e-6, abs_tol=1e-6, maxiter=2000)] *)
Record Config := mkConfig {
  rel_tol : Q;
  abs_tol : Q;
  maxiter : nat
}.

(** Modelled from the spec: the value [info] that [fit] returns,
    "ConvergenceInfo as a small record (iteration count, converged
    flag)". *)
Record ConvergenceInfo := mkInfo {
  iterations : nat;
  converged : bool
}.

(** Modelled from the spec: the check of the configuration,
    "relTol, absTol ≥ 0; maxIter ≥ 1". *)
Definition valid_config (cfg : Config) : bool :=
  Qle_bool 0 (rel_tol cfg) && Qle_bool 0 (abs_tol cfg) && (1 <=? maxiter cfg).

Section Solver.
(** The state of the consensus method (node estimates and per-edge price
    variables) and its two half-steps, which the specification leaves
    open; [residuals_met cfg s s'] is the test of the primal and dual
    residuals between two consecutive states against the tolerances. *)
Context {State : Type}.
Variable node_update : State → State.
Variable edge_update : State → State.
Variable residuals_met : Config → State → State → bool.

(** Modelled from the spec: one iteration.  "Each iteration alternates:
    (a) a per-node convex sub-problem update ... and (b) an edge-wise
    update of the auxiliary variables". *)
Definition iteration (s : State) : State := edge_update (node_update s).

(** Modelled from the spec: the loop of [cvxstrat.Poisson.fit].  "Iterate
    until both the primal residual ... and the dual residual ... fall below
    configured abs_tol/rel_tol thresholds, or maxiter iterations are
    reached".  [left] is the number of iterations still
    allowed, [k] the number already made. *)
Fixpoint fit_loop (cfg : Config) (left k : nat) (s : State)
  : State * ConvergenceInfo :=
  match left with
  | 0 => (s, mkInfo k false)
  | S left' =>
      let s' := iteration s in
      if residuals_met cfg s s' then (s', mkInfo (S k) true)
      else fit_loop cfg left' (S k) s'
  end.

(** Modelled from the spec: the control flow of [cvxstrat.Poisson.fit]
    (the library is not part of the example script).  "Invalid values
    fail with InvalidConfigError"; "reaching maxIter returns the best
    available estimate and flags non-convergence". *)
Definition fit (cfg : Config) (s0 : State) : Result (State * ConvergenceInfo) :=
  if valid_config cfg then ret (fit_loop cfg (maxiter cfg) 0 s0)
  else raise InvalidConfigError.
End Solver.

(** ** The graphs of the script *)

(** [G_location = nx.grid_2d_graph(bins, bins)]; the script has
    [bins = 20]. *)
Definition G_location (bins : nat) : Graph unit := grid_2d_graph bins bins.

(** [G_week = nx.cycle_graph(52)] *)
Definition G_week : Graph unit := cycle_graph 52.

(** [G_day = nx.cycle_graph(7)] *)
Definition G_day : Graph unit := cycle_graph 7.

(** [G_hour = nx.cycle_graph(24)] *)
Definition G_hour : Graph unit := cycle_graph 24.

(** The list [[G_location, G_week, G_day, G_hour]] that the script passes to
    [cvxstrat.cartesian_product]. *)
Definition factor_graphs (bins : nat) : list (Graph unit) :=
  [G_location bins; G_week; G_day; G_hour].

(** The rows whose columns lie in the ranges of the four factors; [Week]
    counts from 1. *)
Definition row_in_range (bins : nat) (r : Row) : Prop :=
  (0 ≤ lat_bin r < Z.of_nat bins)%Z ∧
  (0 ≤ lon_bin r < Z.of_nat bins)%Z ∧
  (1 ≤ Week r ≤ 52)%Z ∧
  (0 ≤ Dayofweek r < 7)%Z ∧
  (0 ≤ Hour r < 24)%Z.

(** ** The figures *)

(** [G.order()]: the number of nodes. *)
Definition order {W} (g : Graph W) : nat := length (nodes g).

(** [loc + (i, j, k)] *)
Definition stratum_key (loc : Node) (i j k : nat) : Node :=
  loc ++ [Z.of_nat i; Z.of_nat j; Z.of_nat k].

(** The rows of [a.reshape(rows, cols)] for a one-dimensional [a]. *)
Fixpoint chunks {A} (rows cols : nat) (l : list A) : list (list A) :=
  match rows with
  | 0 => []
  | S rows' => take cols l :: chunks rows' cols (drop cols l)
  end.

(** [a.reshape(rows, cols)]; [None] stands for the [ValueError] that numpy
    raises when [a] does not have [rows * cols] elements. *)
Definition reshape2 {A} (rows cols : nat) (l : list A)
  : option (list (list A)) :=
  if decide (length l = rows * cols) then Some (chunks rows cols l) else None.

Section Figures.
(** [theta key] is [strat.G.nodes[key]['theta']], [mean] is [ndarray.mean()]
    of a one-dimensional array. *)
Context {A B : Type}.
Variable theta : Node → A.
Variable mean : list A → B.
Variable bins : nat.

(** [[strat.G.nodes[loc + (i, j, k)]['theta'] for i in range(G_week.order())
      for j in range(G_day.order()) for k in range(G_hour.order())]] *)
Definition location_thetas (loc : Node) : list A :=
  i ← seq 0 (order G_week); j ← seq 0 (order G_day);
  k ← seq 0 (order G_hour); [theta (stratum_key loc i j k)].

(** [params = np.array([np.array([...]).mean()
      for loc in G_location.nodes()])] *)
Definition location_params : list B :=
  (λ loc, mean (location_thetas loc)) <$> nodes (G_location bins).

(** [params.reshape(bins, bins)[::-1, :]], the image that [plt.imshow]
    draws with its first row on top. *)
Definition heat_map : option (list (list B)) :=
  reverse <$> reshape2 bins bins location_params.

(** [[[strat.G.nodes[loc + (i, j, k)]['theta']
        for i in range(G_week.order())]
       for j in range(G_day.order()) for k in range(G_hour.order())
       for loc in G_location.nodes()]] *)
Definition week_rows : list (list A) :=
  j ← seq 0 (order G_day); k ← seq 0 (order G_hour);
  loc ← nodes (G_location bins);
  [(λ i, theta (stratum_key loc i j k)) <$> seq 0 (order G_week)].

(** [[[strat.G.nodes[loc + (i, j, k)]['theta']
        for k in range(G_hour.order()) for j in range(G_day.order())]
       for i in range(G_week.order()) for loc in G_location.nodes()]] *)
Definition day_hour_rows : list (list A) :=
  i ← seq 0 (order G_week); loc ← nodes (G_location bins);
  [k ← seq 0 (order G_hour); j ← seq 0 (order G_day);
     [theta (stratum_key loc i j k)]].
End Figures.

(** * Part II: properties *)

(** ** The product graph *)

Section ProductSizes.
Context {W : Type}.
Implicit Types (g : Graph W) (gs : list (Graph W)).

Lemma length_bind_uniform {A B} (f : A → list B) (l : list A) (k : nat) :
  (∀ x, x ∈ l → length (f x) = k) → length (l ≫= f) = length l * k.
Proof.
  induction l as [|x l IH]; intros Hk; [done|].
  rewrite bind_cons, length_app, IH, (Hk x); [simpl; lia| |].
  - apply list_elem_of_here.
  - intros y Hy. apply Hk. by apply list_elem_of_further.
Qed.

Lemma product_nodes_length gs :
  length (product_nodes gs) = prod_list (node_count <$> gs).
Proof.
  induction gs as [|g gs IH]; [done|].
  cbn [product_nodes fmap list_fmap prod_list foldr].
  rewrite (length_bind_uniform _ _ (length (product_nodes gs))).
  - by rewrite IH.
  - intros n _. rewrite (length_bind_uniform _ _ 1); [lia|done].
Qed.





End ProductSizes.

(** ** Stratum aggregation *)

Section AggregateProperties.
Context {Rec : Type} (key : Rec → Node).
Implicit Types (events : gmap Node nat) (df : list Rec) (ns : list Node).

Lemma occurrences_nil n : occurrences key n [] = 0.
Proof. done. Qed.

Lemma occurrences_cons n r df :
  occurrences key n (r :: df) =
  (if decide (key r = n) then 1 else 0) + occurrences key n df.
Proof.
  unfold occurrences. rewrite filter_cons. by destruct (decide (key r = n)).
Qed.

Lemma occurrences_snoc n df r :
  occurrences key n (df ++ [r]) =
  occurrences key n df + (if decide (key r = n) then 1 else 0).
Proof.
  unfold occurrences. rewrite filter_app, length_app, filter_cons.
  by destruct (decide (key r = n)).
Qed.

Lemma foldl_init_lookup ns events n :
  foldl (λ ev node, <[node := 0]> ev) events ns !! n =
  if decide (n ∈ ns) then Some 0 else events !! n.
Proof.
  revert events. induction ns as [|m ns IH]; intros events; simpl.
  - destruct (decide (n ∈ [])) as [H|_]; [by apply elem_of_nil in H|done].
  - rewrite IH. destruct (decide (n ∈ ns)) as [Hin|Hnin].
    + rewrite decide_True; [done|by apply list_elem_of_further].
    + destruct (decide (m = n)) as [->|Hne].
      * rewrite lookup_insert_eq, decide_True; [done|apply list_elem_of_here].
      * rewrite lookup_insert_ne by done.
        rewrite decide_False; [done|].
        intros [->|?]%elem_of_cons; done.
Qed.

Lemma init_events_lookup ns n :
  init_events ns !! n = if decide (n ∈ ns) then Some 0 else None.
Proof. unfold init_events. by rewrite foldl_init_lookup, lookup_empty. Qed.

Lemma count_events_ok events df :
  Forall (λ r, is_Some (events !! key r)) df →
  ∃ events', count_events key events df = inr events' ∧
             ∀ n, events' !! n = (λ c, c + occurrences key n df) <$> events !! n.
Proof.
  revert events. induction df as [|r df IH]; intros events Hdf.
  - exists events. split; [done|]. intros n. rewrite occurrences_nil.
    destruct (events !! n); simpl; [f_equal; lia|done].
  - apply Forall_cons in Hdf as [[c Hc] Hdf].
    cbn [count_events]. unfold incr_event. rewrite Hc. cbn [ret bind].
    destruct (IH (<[key r := c + 1]> events)) as (events' & Hev & Hlk).
    { eapply Forall_impl; [exact Hdf|]. intros r' [c' Hc']. cbn beta in *.
      destruct (decide (key r = key r')) as [Heq|Hne].
      - rewrite <- Heq, lookup_insert_eq. by eexists.
      - rewrite lookup_insert_ne by done. by eexists. }
    exists events'. split; [done|]. intros n. rewrite Hlk, occurrences_cons.
    destruct (decide (key r = n)) as [<-|Hne].
    + rewrite lookup_insert_eq, Hc. simpl. f_equal. lia.
    + rewrite lookup_insert_ne by done. by destruct (events !! n).
Qed.

Lemma count_events_dom events df events' n :
  count_events key events df = inr events' →
  is_Some (events' !! n) ↔ is_Some (events !! n).
Proof.
  revert events. induction df as [|r df IH]; intros events; cbn [count_events].
  - by intros [= ->].
  - unfold incr_event. destruct (events !! key r) as [c|] eqn:Hc; [|done].
    cbn [ret bind]. intros Hev. rewrite (IH _ Hev).
    destruct (decide (key r = n)) as [<-|Hne].
    + rewrite lookup_insert_eq, Hc. split; by eexists.
    + by rewrite lookup_insert_ne.
Qed.

Lemma count_events_missing events df1 r df2 :
  Forall (λ r', is_Some (events !! key r')) df1 →
  events !! key r = None →
  count_events key events (df1 ++ r :: df2) = inl (KeyError (key r)).
Proof.
  revert events. induction df1 as [|r1 df1 IH]; intros events Hdf Hr.
  - cbn [app count_events]. unfold incr_event. by rewrite Hr.
  - apply Forall_cons in Hdf as [[c Hc] Hdf].
    cbn [app count_events]. unfold incr_event. rewrite Hc. cbn [ret bind].
    apply IH.
    + eapply Forall_impl; [exact Hdf|]. intros r' [c' Hc']. cbn beta in *.
      destruct (decide (key r1 = key r')) as [Heq|Hne].
      * rewrite <- Heq, lookup_insert_eq. by eexists.
      * rewrite lookup_insert_ne by done. by eexists.
    + rewrite lookup_insert_ne; [done|]. intros Heq. congruence.
Qed.

Lemma collect_ok events ns :
  Forall (λ n, is_Some (events !! n)) ns →
  collect events ns = inr ((λ n, default 0 (events !! n)) <$> ns, ns).
Proof.
  induction ns as [|n ns IH]; intros Hns; [done|].
  apply Forall_cons in Hns as [[c Hc] Hns].
  cbn [collect]. rewrite Hc, (IH Hns). by rewrite fmap_cons, Hc.
Qed.

Lemma aggregate_value {W} (G : Graph W) df :
  Forall (λ r, key r ∈ nodes G) df →
  aggregate key G df = inr ((λ n, occurrences key n df) <$> nodes G, nodes G).
Proof.
  intros Hdf. unfold aggregate.
  destruct (count_events_ok (init_events (nodes G)) df) as (events & Hev & Hlk).
  { eapply Forall_impl; [exact Hdf|]. intros r Hr. cbn beta in *.
    rewrite init_events_lookup, decide_True by done. by eexists. }
  rewrite Hev. cbn [bind]. rewrite collect_ok.
  - f_equal. f_equal. apply list_fmap_ext. intros i n Hn.
    rewrite Hlk, init_events_lookup, decide_True; [done|].
    by eapply list_elem_of_lookup_2.
  - apply Forall_forall. intros n Hn.
    rewrite Hlk, init_events_lookup, decide_True by done. by eexists.
Qed.

(** C5: when the records before [r] all have their key in the graph and
    the key of [r] is not a node of the graph, the aggregation fails at
    [r] with a key error that carries the offending key; no count vector
    is returned. *)
Theorem aggregate_key_error {W} (G : Graph W) df1 r df2 :
  Forall (λ r', key r' ∈ nodes G) df1 →
  key r ∉ nodes G →
  aggregate key G (df1 ++ r :: df2) = inl (KeyError (key r)).
Proof.
  intros Hdf Hr. unfold aggregate.
  rewrite count_events_missing; [done| |].
  - eapply Forall_impl; [exact Hdf|]. intros r' Hr'. cbn beta in *.
    rewrite init_events_lookup, decide_True by done. by eexists.
  - by rewrite init_events_lookup, decide_False.
Qed.

(** Some record with a key outside the graph makes the whole aggregation
    fail with a key error for a key outside the graph. *)
Lemma aggregate_rejects_foreign_keys {W} (G : Graph W) df :
  Exists (λ r, key r ∉ nodes G) df →
  ∃ k, aggregate key G df = inl (KeyError k) ∧ k ∉ nodes G.
Proof.
  induction df as [|r df IH] using rev_ind; [by intros ?%Exists_nil|].
  intros Hex. destruct (decide (Exists (λ r, key r ∉ nodes G) df)) as [Hd|Hd].
  - destruct (IH Hd) as (k & Hk & Hnin). exists k. split; [|done].
    revert Hk. unfold aggregate.
    destruct (count_events key (init_events (nodes G)) df) as [e|events] eqn:Hc.
    + intros [= ->]. clear -Hc. revert Hc.
      generalize (init_events (nodes G)). induction df as [|r' df IH];
        intros events; cbn [app count_events]; [done|].
      destruct (incr_event events (key r')); cbn [bind];
        [by intros [= ->]|apply IH].
    + cbn [bind]. intros Hcol. exfalso. revert Hcol. rewrite collect_ok; [done|].
      apply Forall_forall. intros n Hn.
      apply (count_events_dom _ _ _ n) in Hc. apply Hc.
      rewrite init_events_lookup, decide_True by done. by eexists.
  - apply Exists_app in Hex as [Hex|Hex]; [done|].
    apply Exists_cons in Hex as [Hr|Hex]; [|by apply Exists_nil in Hex].
    exists (key r). split; [|done]. unfold aggregate.
    rewrite count_events_missing; [done| |].
    + apply not_Exists_Forall in Hd; [|intros ?; apply _].
      eapply Forall_impl; [exact Hd|]. intros r' Hr'. cbn beta in *.
      apply dec_stable in Hr'.
      rewrite init_events_lookup, decide_True by done. by eexists.
    + by rewrite init_events_lookup, decide_False.
Qed.

(** C7: when every record's key is a node of the graph, the aggregation
    returns the node list itself together with a count vector of the same
    length whose entry for a node is the number of records with that key:
    0 for a node without records, one more for each record of the node. *)
Theorem aggregate_counts {W} (G : Graph W) df :
  Forall (λ r, key r ∈ nodes G) df →
  ∃ Y, aggregate key G df = inr (Y, nodes G) ∧
       length Y = node_count G ∧
       ∀ i n, nodes G !! i = Some n → Y !! i = Some (occurrences key n df).
Proof.
  intros Hdf. eexists. split; [by apply aggregate_value|]. split.
  - by rewrite length_fmap.
  - intros i n Hn. by rewrite list_lookup_fmap, Hn.
Qed.

Lemma sum_list_indicator (k : Node) ns :
  NoDup ns → k ∈ ns →
  sum_list ((λ n, if decide (k = n) then 1 else 0) <$> ns) = 1.
Proof.
  induction 1 as [|n ns Hn Hns IH]; [by intros ?%elem_of_nil|].
  intros Hk. rewrite fmap_cons. cbn [sum_list_with Datatypes.id].
  destruct (decide (k = n)) as [->|Hne].
  - rewrite sum_list_fmap_same with (n := 0); [lia|].
    apply Forall_forall. intros m Hm. rewrite decide_False; [done|].
    by intros ->.
  - apply elem_of_cons in Hk as [?|Hk]; [done|]. by rewrite IH.
Qed.

Lemma sum_list_occurrences ns df :
  NoDup ns → Forall (λ r, key r ∈ ns) df →
  sum_list ((λ n, occurrences key n df) <$> ns) = length df.
Proof.
  intros Hns. induction 1 as [|r df Hr Hdf IH].
  - rewrite sum_list_fmap_same with (n := 0); [simpl; lia|]. by apply Forall_true.
  - pose proof (sum_list_indicator (key r) ns Hns Hr) as Hone.
    cbn [length]. rewrite <- IH. clear IH Hns Hr Hdf.
    enough (sum_list ((λ n, occurrences key n (r :: df)) <$> ns) =
            sum_list ((λ n, if decide (key r = n) then 1 else 0) <$> ns) +
            sum_list ((λ n, occurrences key n df) <$> ns)) as -> by lia.
    clear Hone. induction ns as [|n ns IHns]; [done|].
    rewrite !fmap_cons. cbn [sum_list_with Datatypes.id].
    rewrite occurrences_cons. lia.
Qed.

(** C10: over a graph whose nodes are listed once each, when every
    record's key is a node of the graph, the counts returned by the
    aggregation add up to the number of records. *)
Theorem aggregate_conserves_total {W} (G : Graph W) df :
  NoDup (nodes G) →
  Forall (λ r, key r ∈ nodes G) df →
  ∃ Y Zs, aggregate key G df = inr (Y, Zs) ∧ sum_list Y = length df.
Proof.
  intros Hnd Hdf. eexists _, _. split; [by apply aggregate_value|].
  by apply sum_list_occurrences.
Qed.
End AggregateProperties.

(** ** Node identities of the product graph *)

Section ProductNodes.
Context {W : Type}.
Implicit Types (g : Graph W) (gs : list (Graph W)) (n t : Node).

Lemma elem_of_product_nodes_cons g gs n :
  n ∈ product_nodes (g :: gs) ↔
  ∃ p t, p ∈ nodes g ∧ t ∈ product_nodes gs ∧ n = p ++ t.
Proof.
  cbn [product_nodes]. rewrite list_elem_of_bind. split.
  - intros (p & Hn & Hp). apply list_elem_of_bind in Hn as (t & Hn & Ht).
    apply list_elem_of_singleton in Hn. by exists p, t.
  - intros (p & t & Hp & Ht & ->). exists p. split; [|done].
    apply list_elem_of_bind. exists t. split; [|done].
    by apply list_elem_of_singleton.
Qed.

(** A product node is exactly a concatenation of one node per factor. *)
Lemma elem_of_product_nodes gs n :
  n ∈ product_nodes gs ↔
  ∃ parts, Forall2 (λ p g, p ∈ nodes g) parts gs ∧ n = mjoin parts.
Proof.
  revert n. induction gs as [|g gs IH]; intros n.
  - cbn [product_nodes]. rewrite list_elem_of_singleton. split.
    + intros ->. exists []. by split; [constructor|].
    + intros (parts & Hparts & ->). by apply Forall2_nil_inv_r in Hparts as ->.
  - rewrite elem_of_product_nodes_cons. split.
    + intros (p & t & Hp & Ht & ->). apply IH in Ht as (parts & Hparts & ->).
      exists (p :: parts). by split; [constructor|].
    + intros (parts & Hparts & ->).
      apply Forall2_cons_inv_r in Hparts as (p & parts' & Hp & Hparts & ->).
      exists p, (mjoin parts'). split; [done|]. split; [|done].
      apply IH. by exists parts'.
Qed.

Lemma product_nodes_arity arities gs :
  has_arities arities gs →
  Forall (λ n, length n = sum_list arities) (product_nodes gs).
Proof.
  induction 1 as [|a g arities gs Ha _ IH]; apply Forall_forall; intros n.
  - cbn [product_nodes]. by intros ->%list_elem_of_singleton.
  - intros (p & t & Hp & Ht & ->)%elem_of_product_nodes_cons.
    rewrite Forall_forall in Ha, IH. rewrite length_app, (Ha p Hp), (IH t Ht).
    done.
Qed.

Lemma product_nodes_NoDup arities gs :
  has_arities arities gs →
  Forall (λ g, NoDup (nodes g)) gs →
  NoDup (product_nodes gs).
Proof.
  induction 1 as [|a g arities gs Ha Hgs IH]; intros Hnd.
  - cbn [product_nodes]. apply NoDup_singleton.
  - apply Forall_cons in Hnd as [Hg Hnd]. cbn [product_nodes].
    rewrite Forall_forall in Ha. apply NoDup_bind; [| |done].
    + intros p1 p2 n Hp1 Hp2 (t1 & -> %list_elem_of_singleton & _)%list_elem_of_bind
        (t2 & Heq %list_elem_of_singleton & _)%list_elem_of_bind.
      apply app_inj_1 in Heq as [? _]; [done|].
      by rewrite (Ha p1 Hp1), (Ha p2 Hp2).
    + intros p Hp. apply NoDup_bind; [| |by apply IH].
      * intros t1 t2 n _ _ ->%list_elem_of_singleton Heq%list_elem_of_singleton.
        by apply app_inv_head in Heq.
      * intros t _. apply NoDup_singleton.
Qed.

(** An edge of the product joins two nodes that agree on every factor but
    one, where a factor edge joins their components; it has that edge's
    weight. *)
Lemma elem_of_product_edges gs (u v : Node) (w : W) :
  (u, v, w) ∈ product_edges gs ↔
  ∃ pre g post a b s t,
    gs = pre ++ g :: post ∧ (a, b, w) ∈ edges g ∧
    s ∈ product_nodes pre ∧ t ∈ product_nodes post ∧
    u = s ++ a ++ t ∧ v = s ++ b ++ t.
Proof.
  revert u v. induction gs as [|g0 gs IH]; intros u v.
  - cbn [product_edges]. split; [by intros ?%elem_of_nil|].
    intros (pre & g & post & a & b & s & t & Heq & _). by destruct pre.
  - cbn [product_edges]. rewrite elem_of_app, !list_elem_of_bind. split.
    + intros [(e & He & Hin)|(n & He & Hin)].
      * apply list_elem_of_bind in He as (t & He & Ht).
        apply list_elem_of_singleton in He as [= -> -> ->].
        exists [], g0, gs, e.1.1, e.1.2, [], t.
        split_and!; try done; [|apply list_elem_of_here].
        by destruct e as [[a b] w'].
      * apply list_elem_of_bind in He as (e & He & He').
        apply list_elem_of_singleton in He as [= -> -> ->].
        destruct e as [[u' v'] w']. cbn [fst snd] in *.
        apply IH in He' as (pre & g & post & a & b & s & t & -> & Hab & Hs & Ht & -> & ->).
        exists (g0 :: pre), g, post, a, b, (n ++ s), t.
        split_and!; try done; [|by rewrite <- (assoc_L (++))..].
        apply elem_of_product_nodes_cons. by exists n, s.
    + intros (pre & g & post & a & b & s & t & Heq & Hab & Hs & Ht & -> & ->).
      destruct pre as [|g1 pre]; simplify_eq/=.
      * left. apply list_elem_of_singleton in Hs as ->.
        exists (a, b, w). split; [|done].
        apply list_elem_of_bind. exists t. split; [|done].
        by apply list_elem_of_singleton.
      * right. apply elem_of_product_nodes_cons in Hs as (n & s' & Hn & Hs' & ->).
        exists n. split; [|done].
        apply list_elem_of_bind. exists (s' ++ a ++ t, s' ++ b ++ t, w).
        split; [apply list_elem_of_singleton; by rewrite <- !(assoc_L (++))|].
        apply IH. by exists pre, g, post, a, b, s', t.
Qed.

Lemma simple_factors_nodes arities gs :
  Forall2 simple_factor arities gs →
  has_arities arities gs ∧ Forall (λ g, NoDup (nodes g)) gs.
Proof.
  induction 1 as [|a g arities gs (Ha & Hnd & _) _ [IHa IHn]].
  - split; constructor.
  - split; by constructor.
Qed.

(** The product of simple factors lists each of its edges once. *)
Lemma product_edges_NoDup arities gs :
  Forall2 simple_factor arities gs → NoDup (product_edges gs).
Proof.
  induction 1 as [|a g arities gs Hg Hgs IH]; [constructor|].
  destruct (simple_factors_nodes _ _ Hgs) as [Har Hnds].
  pose proof (product_nodes_NoDup _ _ Har Hnds) as Hpn.
  destruct Hg as (Ha & Hnd & Hed & Hends).
  rewrite Forall_forall in Ha. rewrite Forall_forall in Hends.
  cbn [product_edges]. apply NoDup_app. split_and!.
  - apply NoDup_bind; [| |done].
    + intros [[a1 b1] w1] [[a2 b2] w2] x He1 He2
        (t1 & -> %list_elem_of_singleton & _)%list_elem_of_bind
        (t2 & Heq %list_elem_of_singleton & _)%list_elem_of_bind.
      cbn [fst snd] in Heq. injection Heq as Hu Hv ->.
      destruct (Hends _ He1) as (Ha1 & Hb1 & _).
      destruct (Hends _ He2) as (Ha2 & Hb2 & _). cbn [fst snd] in *.
      apply app_inj_1 in Hu as [-> _]; [|by rewrite !Ha].
      apply app_inj_1 in Hv as [-> _]; [|by rewrite !Ha]. done.
    + intros e _. apply NoDup_bind; [| |done].
      * intros t1 t2 x _ _ ->%list_elem_of_singleton Heq%list_elem_of_singleton.
        injection Heq as Hu _. by apply app_inv_head in Hu.
      * intros t _. apply NoDup_singleton.
  - intros x (e & (t & -> %list_elem_of_singleton & _)%list_elem_of_bind & He)
      %list_elem_of_bind
      (n & (e' & Heq %list_elem_of_singleton & _)%list_elem_of_bind & Hn)
      %list_elem_of_bind.
    destruct (Hends _ He) as (Ha1 & Hb1 & Hne). injection Heq as Hu Hv _.
    apply app_inj_1 in Hu as [Hu _]; [|by rewrite !Ha].
    apply app_inj_1 in Hv as [Hv _]; [|by rewrite !Ha]. congruence.
  - apply NoDup_bind; [| |done].
    + intros n1 n2 x Hn1 Hn2
        (e1 & -> %list_elem_of_singleton & _)%list_elem_of_bind
        (e2 & Heq %list_elem_of_singleton & _)%list_elem_of_bind.
      injection Heq as Hu _.
      apply app_inj_1 in Hu as [Hu _]; [done|by rewrite !Ha].
    + intros n _. apply NoDup_bind; [| |done].
      * intros [[u1 v1] w1] [[u2 v2] w2] x _ _
          ->%list_elem_of_singleton Heq%list_elem_of_singleton.
        cbn [fst snd] in Heq. injection Heq as Hu Hv ->.
        apply app_inv_head in Hu, Hv. by subst.
      * intros e _. apply NoDup_singleton.
Qed.

(** A product of factors that all have weight [w] has weight [w] on every
    edge. *)
Lemma product_edges_weight gs (w : W) :
  Forall (λ g, Forall (λ e, e.2 = w) (edges g)) gs →
  Forall (λ e, e.2 = w) (product_edges gs).
Proof.
  intros Hgs. apply Forall_forall. intros [[u v] w'] Hin.
  apply elem_of_product_edges in Hin
    as (pre & g & post & a & b & s & t & -> & Hab & _).
  rewrite Forall_forall in Hgs.
  assert (g ∈ pre ++ g :: post) as Hg by (apply elem_of_app; right; left).
  specialize (Hgs g Hg). rewrite Forall_forall in Hgs. exact (Hgs _ Hab).
Qed.

Lemma set_edge_weight_uniform {V} (G : Graph V) (w : W) :
  Forall (λ e, e.2 = w) (edges (set_edge_weight G w)).
Proof.
  unfold set_edge_weight. cbn [edges]. apply Forall_fmap, Forall_true. done.
Qed.

(** C9, as the code has it: a node of the product graph is the
    concatenation, in factor order, of one node tuple of every factor, and
    nothing else is a node; its length is the sum of the lengths of the
    factors' node tuples, which is the number of factors when every factor
    is labelled by single indices; distinct positions of the node list
    hold distinct tuples. *)
Theorem product_node_tuples gs P :
  cartesian_product gs = inr P →
  (∀ n, n ∈ nodes P ↔
        ∃ parts, Forall2 (λ p g, p ∈ nodes g) parts gs ∧ n = mjoin parts) ∧
  (∀ arities, has_arities arities gs →
     Forall (λ n, length n = sum_list arities) (nodes P) ∧
     (Forall (λ g, NoDup (nodes g)) gs → NoDup (nodes P))) ∧
  (has_arities (replicate (length gs) 1) gs →
     Forall (λ n, length n = length gs) (nodes P)).
Proof.
  unfold cartesian_product. destruct (forallb has_nodes gs); [|done].
  intros [= <-]. cbn [nodes]. split_and!.
  - apply elem_of_product_nodes.
  - intros arities Har. split.
    + by apply product_nodes_arity.
    + by apply product_nodes_NoDup with arities.
  - intros Har. apply product_nodes_arity in Har.
    by rewrite sum_list_replicate, Nat.mul_1_r in Har.
Qed.
End ProductNodes.

(** ** Evaluation *)

Section AnllProperties.
Local Open Scope R_scope.
Implicit Types (theta : Node → R) (Y : list nat) (Zs : list Node).

Lemma anll_terms_error theta Y Zs e :
  anll_terms theta Y Zs = inl e → e = DomainError.
Proof.
  revert Zs. induction Y as [|y Y IH]; intros [|z Zs]; cbn [anll_terms];
    try done.
  destruct (Rle_dec (theta z) 0); [destruct (0 <? y)%nat|];
    try (by intros [= <-]);
    destruct (anll_terms theta Y Zs) as [e'|ts] eqn:Hts; cbn [bind ret];
    try done; intros [= <-]; by apply (IH Zs).
Qed.

Lemma anll_terms_domain_error theta Y Zs i y z :
  Y !! i = Some y → Zs !! i = Some z →
  (0 < y)%nat → theta z <= 0 →
  anll_terms theta Y Zs = inl DomainError.
Proof.
  revert Zs i. induction Y as [|y' Y IH]; intros [|z' Zs] [|i]; try done;
    simpl lookup; cbn [anll_terms].
  - intros [= ->] [= ->] Hy Hz. destruct (Rle_dec (theta z) 0); [|done].
    by rewrite (proj2 (Nat.ltb_lt 0 y) Hy).
  - intros HY HZ Hy Hz. rewrite (IH _ _ HY HZ Hy Hz). cbn [bind].
    destruct (Rle_dec (theta z') 0); [|done]. by destruct (0 <? y')%nat.
Qed.

(** C6: when some observation [y > 0] lies on a node whose rate is
    [<= 0], the average negative log-likelihood is not computed: the
    evaluation fails with [DomainError]. *)
Theorem anll_domain_error theta Y Zs i y z :
  Y !! i = Some y → Zs !! i = Some z →
  (0 < y)%nat → theta z <= 0 →
  anll theta Y Zs = inl DomainError.
Proof.
  intros HY HZ Hy Hz. unfold anll.
  by rewrite (anll_terms_domain_error theta Y Zs i y z).
Qed.

(** Where every observed event has a positive rate the evaluation
    succeeds, with the mean of the per-observation terms. *)
Lemma anll_terms_defined theta Y Zs :
  (∀ i y z, Y !! i = Some y → Zs !! i = Some z → (0 < y)%nat → 0 < theta z) →
  anll_terms theta Y Zs = inr (zip_with (λ y z, anll_term y (theta z)) Y Zs).
Proof.
  revert Zs. induction Y as [|y Y IH]; intros [|z Zs] Hpos; try done.
  cbn [anll_terms zip_with]. rewrite IH.
  - cbn [bind ret]. destruct (Rle_dec (theta z) 0) as [Hle|_]; [|done].
    destruct (0 <? y)%nat eqn:Hy; [|done]. apply Nat.ltb_lt in Hy.
    specialize (Hpos 0%nat y z eq_refl eq_refl Hy). lra.
  - intros i y' z' HY HZ. by apply (Hpos (S i)).
Qed.

Lemma anll_defined theta Y Zs :
  (∀ i y z, Y !! i = Some y → Zs !! i = Some z → (0 < y)%nat → 0 < theta z) →
  anll theta Y Zs =
  inr (Rsum (zip_with (λ y z, anll_term y (theta z)) Y Zs)
       / INR (length (zip_with (λ y z, anll_term y (theta z)) Y Zs))).
Proof. intros Hpos. unfold anll. by rewrite anll_terms_defined. Qed.
End AnllProperties.

(** ** Termination of the iteration *)

Section SolverProperties.
Context {State : Type}.
Variable node_update : State → State.
Variable edge_update : State → State.
Variable residuals_met : Config → State → State → bool.

Abbreviation step := (iteration node_update edge_update).
Abbreviation loop := (fit_loop node_update edge_update residuals_met).

(** The state after [j] iterations from [s]. *)
Abbreviation iterate j s := (Nat.iter j step s).

Lemma iterate_shift j s : iterate j (step s) = iterate (S j) s.
Proof. by rewrite Nat.iter_succ_r. Qed.

Lemma fit_loop_cap cfg left k s :
  (∀ j, j < left →
     residuals_met cfg (iterate j s) (iterate (S j) s) = false) →
  loop cfg left k s = (iterate left s, mkInfo (k + left) false).
Proof.
  revert k s. induction left as [|left IH]; intros k s Hno.
  - cbn [fit_loop]. by rewrite Nat.add_0_r.
  - cbn [fit_loop]. pose proof (Hno 0 ltac:(lia)) as H0.
    cbn [Nat.iter nat_rect] in H0. rewrite H0, IH.
    + rewrite iterate_shift. do 2 f_equal. lia.
    + intros j Hj. rewrite !iterate_shift. apply Hno. lia.
Qed.

Lemma fit_loop_converged cfg left k s j :
  j < left →
  (∀ i, i < j →
     residuals_met cfg (iterate i s) (iterate (S i) s) = false) →
  residuals_met cfg (iterate j s) (iterate (S j) s) = true →
  loop cfg left k s = (iterate (S j) s, mkInfo (k + S j) true).
Proof.
  revert left k s. induction j as [|j IH]; intros left k s Hj Hno Hyes.
  - destruct left as [|left]; [lia|]. cbn [fit_loop].
    cbn [Nat.iter nat_rect] in Hyes. rewrite Hyes. do 2 f_equal. lia.
  - destruct left as [|left]; [lia|]. cbn [fit_loop].
    pose proof (Hno 0 ltac:(lia)) as H0. cbn [Nat.iter nat_rect] in H0.
    rewrite H0, (IH left (S k) (step s)).
    + rewrite iterate_shift. do 2 f_equal. lia.
    + lia.
    + intros i Hi. rewrite !iterate_shift. apply Hno. lia.
    + by rewrite !iterate_shift.
Qed.

(** C8: with a valid configuration [fit] never fails.  When the residual
    test fails at each of the [maxiter] iterations, it returns the state
    after [maxiter] iterations with [iterations = maxiter] and
    [converged = false]; when the test first succeeds at iteration
    [j + 1 <= maxiter], it returns the state after [j + 1] iterations with
    [iterations = j + 1] and [converged = true]. *)
Theorem fit_reports_convergence cfg s0 :
  valid_config cfg = true →
  (∃ r, fit node_update edge_update residuals_met cfg s0 = inr r) ∧
  ((∀ j, j < maxiter cfg →
      residuals_met cfg (iterate j s0) (iterate (S j) s0) = false) →
   fit node_update edge_update residuals_met cfg s0 =
   inr (iterate (maxiter cfg) s0, mkInfo (maxiter cfg) false)) ∧
  (∀ j, j < maxiter cfg →
     (∀ i, i < j →
        residuals_met cfg (iterate i s0) (iterate (S i) s0) = false) →
     residuals_met cfg (iterate j s0) (iterate (S j) s0) = true →
     fit node_update edge_update residuals_met cfg s0 =
     inr (iterate (S j) s0, mkInfo (S j) true)).
Proof.
  intros Hcfg. unfold fit. rewrite Hcfg. split_and!.
  - by eexists.
  - intros Hno. by rewrite fit_loop_cap.
  - intros j Hj Hno Hyes. by rewrite (fit_loop_converged _ _ _ _ j).
Qed.

(** The flag is [false] only when the cap was hit. *)
Lemma fit_loop_not_converged cfg left k s s' info :
  loop cfg left k s = (s', info) →
  converged info = false → iterations info = k + left.
Proof.
  revert k s. induction left as [|left IH]; intros k s; cbn [fit_loop].
  - intros [= <- <-] _. simpl. lia.
  - destruct (residuals_met cfg s (step s)).
    + by intros [= <- <-].
    + intros Hl Hc. rewrite (IH _ _ Hl Hc). lia.
Qed.
End SolverProperties.

(** ** Worked instances *)

(** The product of a 2 x 2 grid and a 3-cycle, built and counted. *)
Example product_counts_example :
  ∃ P, cartesian_product [grid_2d_graph 2 2; cycle_graph 3] = inr P ∧
       node_count P = 12 ∧ edge_count P = 24 ∧
       product_edge_formula [grid_2d_graph 2 2; cycle_graph 3] = 24.
Proof. eexists. split; [reflexivity|]. by vm_compute. Qed.


(** A factor without nodes is refused. *)
Example cartesian_product_empty_factor :
  cartesian_product [cycle_graph 4; empty_graph 0] = inl InvalidGraphError.
Proof. reflexivity. Qed.

(** Two factors, one of them a grid: the product nodes are triples.  The
    script's four factors give the 5-tuples [(lat, lon, week, day, hour)]. *)
Lemma product_tuple_length_counterexample :
  ¬ (∀ (gs : list (Graph unit)) (P : Graph unit) (n : Node),
       cartesian_product gs = inr P → n ∈ nodes P → length n = length gs).
Proof.
  intros H.
  specialize (H [grid_2d_graph 2 2; cycle_graph 3] _ [0; 0; 0]%Z eq_refl).
  assert ([0; 0; 0]%Z ∈
          nodes (mkGraph (product_nodes [grid_2d_graph 2 2; cycle_graph 3])
                         (product_edges [grid_2d_graph 2 2; cycle_graph 3])))
    as Hin by compute_done.
  specialize (H Hin). discriminate H.
Qed.

Lemma product_node_tuples_witness :
  ∃ P, cartesian_product [grid_2d_graph 2 2; cycle_graph 3] = inr P ∧
       Forall (λ n, length n = 3) (nodes P) ∧ NoDup (nodes P).
Proof.
  eexists. split; [reflexivity|].
  destruct (product_node_tuples [grid_2d_graph 2 2; cycle_graph 3] _ eq_refl)
    as (_ & Har & _).
  destruct (Har [2; 1]) as [Hlen Hnd].
  - repeat constructor.
  - split; [exact Hlen|]. apply Hnd. repeat constructor; compute_done.
Defined.

(** The scenario of the specification: the key [(5,)] against the 4-cycle. *)
Lemma aggregate_key_error_witness :
  aggregate (λ z : Z, [z]) (cycle_graph 4) ([0; 2] ++ 5 :: [3])%Z =
  inl (KeyError [5%Z]).
Proof.
  apply (aggregate_key_error (λ z : Z, [z]) (cycle_graph 4)
           [0; 2]%Z 5%Z [3%Z]); compute_done.
Defined.

Lemma aggregate_counts_witness :
  ∃ Y, aggregate (λ z : Z, [z]) (cycle_graph 4) [0; 2; 2; 3; 2]%Z =
       inr (Y, nodes (cycle_graph 4)) ∧
       length Y = 4 ∧ Y !! 2 = Some 3 ∧ Y !! 1 = Some 0.
Proof.
  destruct (aggregate_counts (λ z : Z, [z]) (cycle_graph 4) [0; 2; 2; 3; 2]%Z)
    as (Y & HY & Hlen & Hocc); [compute_done|].
  exists Y. split_and!; [exact HY|exact Hlen| |].
  - exact (Hocc 2 [2%Z] eq_refl).
  - exact (Hocc 1 [1%Z] eq_refl).
Defined.

Lemma aggregate_conserves_total_witness :
  ∃ Y Zs, aggregate (λ z : Z, [z]) (cycle_graph 4) [0; 2; 2; 3; 2]%Z =
          inr (Y, Zs) ∧ sum_list Y = 5.
Proof.
  apply (aggregate_conserves_total (λ z : Z, [z]) (cycle_graph 4)
           [0; 2; 2; 3; 2]%Z); compute_done.
Defined.

(** [df_to_data] on rows of the data frame, against a small product of the
    script's shape (grid, weeks, days, hours); [Week] counts from 1. *)
Example df_to_data_example :
  ∃ G, cartesian_product
         [grid_2d_graph 1 2; cycle_graph 2; cycle_graph 1; cycle_graph 1]
       = inr G ∧
       df_to_data G [mkRow 0 1 2 0 0; mkRow 0 0 1 0 0; mkRow 0 1 2 0 0] =
       inr ([1; 0; 0; 2],
            [[0; 0; 0; 0; 0]; [0; 0; 1; 0; 0];
             [0; 1; 0; 0; 0]; [0; 1; 1; 0; 0]]%Z) ∧
       df_to_data G [mkRow 0 1 2 0 0; mkRow 0 0 3 0 0; mkRow 0 1 2 0 0] =
       inl (KeyError [0; 0; 2; 0; 0]%Z).
Proof. eexists. split; [reflexivity|]. split; by vm_compute. Qed.

Section RealInstances.
Local Open Scope R_scope.

(** The scenario of the specification: rates [0, 1, 1, 1] against the
    counts [1, 0, 0, 0] on the 4-cycle. *)
Lemma anll_domain_error_witness :
  anll (λ n, if decide (n = [0%Z]) then 0 else 1)
       [1; 0; 0; 0]%nat (nodes (cycle_graph 4)) = inl DomainError.
Proof.
  apply (anll_domain_error _ _ _ 0%nat 1%nat [0%Z]);
    [reflexivity|reflexivity|lia|].
  rewrite decide_True by done. lra.
Defined.

(** With positive rates the same counts are evaluated. *)
Example anll_defined_example :
  anll (λ _, 1) [1; 0; 0; 0]%nat (nodes (cycle_graph 4)) = inr 1.
Proof.
  rewrite anll_defined by (intros; lra). f_equal.
  unfold Rsum, anll_term, poisson_nll. simpl. rewrite ln_1. lra.
Qed.
End RealInstances.

(** A run that never meets the residual test within three iterations, and
    one that meets it at the second. *)
Lemma fit_reports_convergence_witness :
  fit S (λ s, s) (λ _ _ s', s' =? 10) (mkConfig (1 # 1000000) (1 # 1000000) 3) 0
  = inr (3, mkInfo 3 false) ∧
  fit S (λ s, s) (λ _ _ s', s' =? 2) (mkConfig (1 # 1000000) (1 # 1000000) 3) 0
  = inr (2, mkInfo 2 true).
Proof.
  split.
  - apply (fit_reports_convergence S (λ s, s) (λ _ _ s', s' =? 10)
             (mkConfig (1 # 1000000) (1 # 1000000) 3) 0 eq_refl).
    intros [|[|[|j]]] Hj; [reflexivity..|simpl in Hj; lia].
  - apply (fit_reports_convergence S (λ s, s) (λ _ _ s', s' =? 2)
             (mkConfig (1 # 1000000) (1 # 1000000) 3) 0 eq_refl)
      with (j := 1); [simpl; lia| |reflexivity].
    intros [|i] Hi; [reflexivity|lia].
Defined.

(** An invalid configuration is refused before any iteration. *)
Example fit_invalid_config :
  fit S (λ s, s) (λ _ _ _, false) (mkConfig (1 # 1000000) (1 # 1000000) 0) 0
  = inl InvalidConfigError.
Proof. reflexivity. Qed.

(** * Part III: further properties of the script *)

(** ** Laws of the aggregation *)

Section AggregateLaws.
Context {Rec : Type} (key : Rec → Node).
Implicit Types (df : list Rec).

Lemma occurrences_app n df1 df2 :
  occurrences key n (df1 ++ df2) = occurrences key n df1 + occurrences key n df2.
Proof. unfold occurrences. by rewrite filter_app, length_app. Qed.

Lemma occurrences_permutation n df1 df2 :
  df1 ≡ₚ df2 → occurrences key n df1 = occurrences key n df2.
Proof. intros Hp. unfold occurrences. by rewrite Hp. Qed.

(** The longest prefix of valid records, when some record is not valid. *)
Lemma first_foreign_record (ns : list Node) df :
  ¬ Forall (λ r, key r ∈ ns) df →
  ∃ df1 r df2, (df = df1 ++ r :: df2) ∧
               Forall (λ r', key r' ∈ ns) df1 ∧ key r ∉ ns.
Proof.
  induction df as [|r df IH]; intros Hn.
  - destruct Hn. constructor.
  - destruct (decide (key r ∈ ns)) as [Hr|Hr].
    + destruct IH as (df1 & r' & df2 & -> & Hdf1 & Hr').
      { intros Hdf. apply Hn. by constructor. }
      exists (r :: df1), r', df2. split_and!; [done|by constructor|done].
    + exists [], r, df. split_and!; [done|constructor|done].
Qed.

Lemma aggregate_foreign {W} (G : Graph W) df1 r df2 :
  Forall (λ r', key r' ∈ nodes G) df1 →
  key r ∉ nodes G →
  aggregate key G (df1 ++ r :: df2) = inl (KeyError (key r)).
Proof.
  intros Hdf Hr. unfold aggregate.
  rewrite count_events_missing; [done| |].
  - eapply Forall_impl; [exact Hdf|]. intros r' Hr'. cbn beta in *.
    rewrite init_events_lookup, decide_True by done. by eexists.
  - by rewrite init_events_lookup, decide_False.
Qed.

(** X1: the order of the records does not matter.  The script shuffles
    both yearly frames before it aggregates them; any two orders of the
    same valid records give the same count vector. *)
Theorem aggregate_permutation {W} (G : Graph W) df1 df2 :
  df1 ≡ₚ df2 →
  Forall (λ r, key r ∈ nodes G) df1 →
  aggregate key G df1 = aggregate key G df2.
Proof.
  intros Hp Hdf1.
  assert (Forall (λ r, key r ∈ nodes G) df2) as Hdf2 by (by rewrite <- Hp).
  rewrite !aggregate_value by done. do 2 f_equal.
  apply list_fmap_ext. intros i n _. by apply occurrences_permutation.
Qed.

(** X2: aggregation is additive.  The count vector of two frames put
    together is the entry-wise sum of their count vectors, over the same
    node list. *)
Theorem aggregate_app {W} (G : Graph W) df1 df2 :
  Forall (λ r, key r ∈ nodes G) df1 →
  Forall (λ r, key r ∈ nodes G) df2 →
  ∃ Y1 Y2,
    aggregate key G df1 = inr (Y1, nodes G) ∧
    aggregate key G df2 = inr (Y2, nodes G) ∧
    aggregate key G (df1 ++ df2) = inr (zip_with Nat.add Y1 Y2, nodes G).
Proof.
  intros Hdf1 Hdf2. eexists _, _.
  split; [by apply aggregate_value|]. split; [by apply aggregate_value|].
  rewrite aggregate_value by (by apply Forall_app). do 2 f_equal.
  generalize (nodes G). intros ns. induction ns as [|n ns IH]; [done|].
  rewrite !fmap_cons. cbn [zip_with]. by rewrite occurrences_app, IH.
Qed.

(** X3: the aggregation returns a count vector exactly when every record's
    key is a node of the graph; no record is ever left out of a returned
    vector. *)
Theorem aggregate_succeeds_iff {W} (G : Graph W) df :
  (∃ res, aggregate key G df = inr res) ↔
  Forall (λ r, key r ∈ nodes G) df.
Proof.
  split.
  - intros [res Hres].
    destruct (decide (Forall (λ r, key r ∈ nodes G) df)) as [|Hn]; [done|].
    apply first_foreign_record in Hn as (df1 & r & df2 & -> & Hdf1 & Hr).
    by rewrite aggregate_foreign in Hres.
  - intros Hdf. eexists. by apply aggregate_value.
Qed.

(** X4: every failure of the aggregation is the key error of the first
    record whose key is not a node: the records before it are valid, and
    reading [events[node]] back for the nodes of the graph never fails. *)
Theorem aggregate_error_inv {W} (G : Graph W) df e :
  aggregate key G df = inl e →
  ∃ df1 r df2, (df = df1 ++ r :: df2) ∧
               Forall (λ r', key r' ∈ nodes G) df1 ∧
               (key r ∉ nodes G) ∧ e = KeyError (key r).
Proof.
  intros He.
  destruct (decide (Forall (λ r, key r ∈ nodes G) df)) as [Hdf|Hn].
  - by rewrite aggregate_value in He.
  - apply first_foreign_record in Hn as (df1 & r & df2 & -> & Hdf1 & Hr).
    rewrite aggregate_foreign in He by done. injection He as <-.
    by exists df1, r, df2.
Qed.
End AggregateLaws.

Lemma aggregate_permutation_witness :
  aggregate (λ z : Z, [z]) (cycle_graph 4) [0; 2; 2; 3]%Z =
  aggregate (λ z : Z, [z]) (cycle_graph 4) [2; 3; 0; 2]%Z.
Proof.
  apply (aggregate_permutation (λ z : Z, [z]) (cycle_graph 4)).
  - apply (Permutation_cons_app [2; 3]%Z [2%Z] 0%Z).
    apply (Permutation_cons_app [2; 3]%Z [] 2%Z). reflexivity.
  - compute_done.
Defined.

Lemma aggregate_app_witness :
  ∃ Y1 Y2,
    aggregate (λ z : Z, [z]) (cycle_graph 4) [0; 2]%Z
      = inr (Y1, nodes (cycle_graph 4)) ∧
    aggregate (λ z : Z, [z]) (cycle_graph 4) [2; 3; 2]%Z
      = inr (Y2, nodes (cycle_graph 4)) ∧
    aggregate (λ z : Z, [z]) (cycle_graph 4) ([0; 2] ++ [2; 3; 2])%Z
      = inr (zip_with Nat.add Y1 Y2, nodes (cycle_graph 4)).
Proof.
  apply (aggregate_app (λ z : Z, [z]) (cycle_graph 4) [0; 2]%Z [2; 3; 2]%Z);
    compute_done.
Defined.

Lemma aggregate_error_inv_witness :
  ∃ df1 r df2, ([0; 7; 2; 9]%Z = df1 ++ (r :: df2)) ∧
               Forall (λ r' : Z, [r'] ∈ nodes (cycle_graph 4)) df1 ∧
               ([r] ∉ nodes (cycle_graph 4)) ∧
               KeyError [7%Z] = KeyError [r].
Proof.
  apply (aggregate_error_inv (λ z : Z, [z]) (cycle_graph 4) [0; 7; 2; 9]%Z).
  reflexivity.
Defined.

(** ** Nested comprehensions *)

Lemma bind_assoc_list {A B C} (f : A → list B) (g : B → list C) (l : list A) :
  (l ≫= f) ≫= g = l ≫= (λ x, f x ≫= g).
Proof.
  induction l as [|x l IH]; [done|]. by rewrite !bind_cons, bind_app, IH.
Qed.

Lemma join_bind_list {A B} (f : A → list (list B)) (l : list A) :
  mjoin (l ≫= f) = l ≫= (λ x, mjoin (f x)).
Proof.
  induction l as [|x l IH]; [done|]. by rewrite !bind_cons, join_app, IH.
Qed.

Lemma bind_perm_ext {A B} (f g : A → list B) (l : list A) :
  (∀ x, f x ≡ₚ g x) → l ≫= f ≡ₚ l ≫= g.
Proof.
  intros Hfg. induction l as [|x l IH]; [done|].
  by rewrite !bind_cons, Hfg, IH.
Qed.

Lemma bind_split {A B} (f g : A → list B) (l : list A) :
  l ≫= (λ x, f x ++ g x) ≡ₚ (l ≫= f) ++ (l ≫= g).
Proof.
  induction l as [|x l IH]; [done|]. rewrite !bind_cons, IH.
  rewrite <- !(assoc_L (++)). f_equiv.
  rewrite !(assoc_L (++)). f_equiv. apply Permutation_app_comm.
Qed.

(** Two nested loops may be exchanged, up to the order of the results. *)
Lemma bind_swap {A B C} (l1 : list A) (l2 : list B) (f : A → B → list C) :
  (x ← l1; y ← l2; f x y) ≡ₚ (y ← l2; x ← l1; f x y).
Proof.
  induction l1 as [|x l1 IH].
  - induction l2 as [|y l2 IH2]; [done|]. by rewrite bind_cons, <- IH2.
  - rewrite bind_cons, IH.
    rewrite <- (bind_split (λ y, f x y) (λ y, x' ← l1; f x' y) l2).
    apply bind_perm_ext. intros y. by rewrite bind_cons.
Qed.

(** The entry [i * c + j] of a comprehension whose inner lists all have
    length [c]. *)
Lemma lookup_bind_uniform {A B} (f : A → list B) (l : list A) (c i j : nat) (x : A) :
  (∀ y, y ∈ l → length (f y) = c) →
  l !! i = Some x → j < c →
  (l ≫= f) !! (i * c + j) = f x !! j.
Proof.
  revert i. induction l as [|y l IH]; intros i Hc Hi Hj; [done|].
  rewrite bind_cons. destruct i as [|i]; simplify_eq/=.
  - rewrite lookup_app_l; [done|]. rewrite Hc; [done|apply list_elem_of_here].
  - rewrite lookup_app_r; rewrite Hc by apply list_elem_of_here; [|lia].
    replace (c + i * c + j - c) with (i * c + j) by lia.
    apply IH; [|done..]. intros z Hz. apply Hc. by apply list_elem_of_further.
Qed.
Lemma chunks_length {A} (rows cols : nat) (l : list A) :
  length (chunks rows cols l) = rows.
Proof.
  revert l. induction rows as [|rows IH]; intros l; [done|].
  cbn [chunks length]. by rewrite IH.
Qed.

Lemma chunks_lookup {A} (rows cols r : nat) (l : list A) :
  r < rows → chunks rows cols l !! r = Some (take cols (drop (r * cols) l)).
Proof.
  revert r l. induction rows as [|rows IH]; intros r l Hr; [lia|].
  cbn [chunks]. destruct r as [|r]; [done|].
  cbn [lookup list_lookup]. rewrite IH by lia. rewrite drop_drop.
  by replace (cols + r * cols) with (S r * cols) by lia.
Qed.

(** ** The graph of the script *)

Lemma order_cycle n : order (cycle_graph n) = n.
Proof. unfold order, cycle_graph. cbn [nodes]. by rewrite length_fmap, length_seq. Qed.

Lemma order_grid m n : order (grid_2d_graph m n) = m * n.
Proof.
  unfold order, grid_2d_graph. cbn [nodes].
  rewrite (length_bind_uniform _ _ n), length_seq; [done|].
  intros i _. rewrite (length_bind_uniform _ _ 1), length_seq; [lia|done].
Qed.

(** A loop over the product with a cycle in front is a loop over the
    cycle's indices around a loop over the rest. *)
Lemma product_nodes_cycle_bind {C} n (gs : list (Graph unit))
    (h : Node → list C) :
  product_nodes (cycle_graph n :: gs) ≫= h =
  i ← seq 0 n; product_nodes gs ≫= (λ t, h (Z.of_nat i :: t)).
Proof.
  cbn [product_nodes]. unfold cycle_graph at 1. cbn [nodes].
  rewrite list_fmap_bind, bind_assoc_list.
  apply list_bind_ext; [|done]. intros i. unfold compose.
  rewrite bind_assoc_list. apply list_bind_ext; [|done]. intros t.
  by rewrite bind_singleton.
Qed.

(** The nodes of the script's product graph, as one comprehension. *)
Lemma product_nodes_script bins :
  product_nodes (factor_graphs bins) =
  loc ← nodes (G_location bins); i ← seq 0 (order G_week);
  j ← seq 0 (order G_day); k ← seq 0 (order G_hour);
  [stratum_key loc i j k].
Proof.
  unfold G_week, G_day, G_hour. rewrite !order_cycle.
  unfold factor_graphs, G_week, G_day, G_hour.
  change (product_nodes (G_location bins ::
            [cycle_graph 52; cycle_graph 7; cycle_graph 24]))
    with (n ← nodes (G_location bins);
          product_nodes [cycle_graph 52; cycle_graph 7; cycle_graph 24]
            ≫= (λ t, [n ++ t])).
  apply list_bind_ext; [|done]. intros loc.
  rewrite product_nodes_cycle_bind. apply list_bind_ext; [|done]. intros i.
  rewrite product_nodes_cycle_bind. apply list_bind_ext; [|done]. intros j.
  rewrite product_nodes_cycle_bind. apply list_bind_ext; [|done]. intros k.
  cbn [product_nodes]. by rewrite bind_singleton.
Qed.

Lemma elem_of_grid_nodes m n (z : Node) :
  z ∈ nodes (grid_2d_graph m n) ↔
  ∃ a b, a < m ∧ b < n ∧ z = [Z.of_nat a; Z.of_nat b].
Proof.
  unfold grid_2d_graph. cbn [nodes]. rewrite list_elem_of_bind. split.
  - intros (a & (b & Hz%list_elem_of_singleton & Hb%elem_of_seq)%list_elem_of_bind
              & Ha%elem_of_seq).
    exists a, b. split_and!; [lia..|done].
  - intros (a & b & Ha & Hb & ->). exists a. split; [|apply elem_of_seq; lia].
    apply list_elem_of_bind. exists b. split; [|apply elem_of_seq; lia].
    by apply list_elem_of_singleton.
Qed.

Lemma elem_of_script_nodes bins (n : Node) :
  n ∈ product_nodes (factor_graphs bins) ↔
  ∃ a b i j k, a < bins ∧ b < bins ∧ i < 52 ∧ j < 7 ∧ k < 24 ∧
    n = [Z.of_nat a; Z.of_nat b; Z.of_nat i; Z.of_nat j; Z.of_nat k].
Proof.
  rewrite product_nodes_script. unfold G_week, G_day, G_hour, G_location.
  rewrite !order_cycle, list_elem_of_bind. split.
  - intros (loc & Hn & (a & b & Ha & Hb & ->)%elem_of_grid_nodes).
    apply list_elem_of_bind in Hn as (i & Hn & Hi%elem_of_seq).
    apply list_elem_of_bind in Hn as (j & Hn & Hj%elem_of_seq).
    apply list_elem_of_bind in Hn as (k & Hn & Hk%elem_of_seq).
    apply list_elem_of_singleton in Hn as ->.
    exists a, b, i, j, k. split_and!; [lia..|done].
  - intros (a & b & i & j & k & Ha & Hb & Hi & Hj & Hk & ->).
    exists [Z.of_nat a; Z.of_nat b]. split.
    + apply list_elem_of_bind. exists i. split; [|apply elem_of_seq; lia].
      apply list_elem_of_bind. exists j. split; [|apply elem_of_seq; lia].
      apply list_elem_of_bind. exists k. split; [|apply elem_of_seq; lia].
      by apply list_elem_of_singleton.
    + apply elem_of_grid_nodes. by exists a, b.
Qed.

Lemma row_key_in_script_nodes bins (r : Row) :
  row_key r ∈ product_nodes (factor_graphs bins) ↔ row_in_range bins r.
Proof.
  rewrite elem_of_script_nodes. unfold row_key, row_in_range. split.
  - intros (a & b & i & j & k & Ha & Hb & Hi & Hj & Hk & Heq).
    injection Heq as -> -> Hw -> ->. lia.
  - intros (Hlat & Hlon & Hw & Hd & Hh).
    exists (Z.to_nat (lat_bin r)), (Z.to_nat (lon_bin r)),
           (Z.to_nat (Week r - 1)), (Z.to_nat (Dayofweek r)),
           (Z.to_nat (Hour r)).
    split_and!; [lia..|]. rewrite !Z2Nat.id by lia. done.
Qed.

Lemma script_graph_order bins :
  length (product_nodes (factor_graphs bins)) = bins * bins * 52 * 7 * 24.
Proof.
  rewrite product_nodes_length. unfold factor_graphs.
  cbn [fmap list_fmap prod_list foldr].
  change (node_count (G_location bins)) with (order (grid_2d_graph bins bins)).
  change (node_count G_week) with (order (cycle_graph 52)).
  change (node_count G_day) with (order (cycle_graph 7)).
  change (node_count G_hour) with (order (cycle_graph 24)).
  rewrite order_grid, !order_cycle. lia.
Qed.

Lemma aggregate_inr_inv {Rec W} (key : Rec → Node) (G : Graph W) df res :
  aggregate key G df = inr res →
  Forall (λ r, key r ∈ nodes G) df ∧
  res = ((λ n, occurrences key n df) <$> nodes G, nodes G).
Proof.
  intros Hres.
  destruct (decide (Forall (λ r, key r ∈ nodes G) df)) as [Hdf|Hn].
  - split; [done|]. rewrite aggregate_value in Hres by done. by injection Hres.
  - apply (first_foreign_record key) in Hn as (df1 & r & df2 & -> & Hdf1 & Hr).
    by rewrite aggregate_foreign in Hres.
Qed.

(** X5: against the product of the script's four factors, [df_to_data]
    returns a result exactly when every row has its two bins in
    [0 .. bins-1], its week in [1 .. 52], its day in [0 .. 6] and its hour
    in [0 .. 23]; the result then lists the nodes of the graph and holds
    [bins * bins * 52 * 7 * 24] counts. *)
Theorem df_to_data_script_graph bins (G : Graph unit) (df : list Row) :
  cartesian_product (factor_graphs bins) = inr G →
  ((∃ res, df_to_data G df = inr res) ↔ Forall (row_in_range bins) df) ∧
  (∀ Y Zs, df_to_data G df = inr (Y, Zs) →
     Zs = nodes G ∧ length Y = bins * bins * 52 * 7 * 24).
Proof.
  unfold cartesian_product, ret, raise.
  destruct (forallb has_nodes _); [|discriminate]. intros HG.
  assert (G = mkGraph (product_nodes (factor_graphs bins))
                      (product_edges (factor_graphs bins))) as ->
    by congruence.
  clear HG. unfold df_to_data. cbn [nodes].
  assert (Forall (λ r, row_key r ∈ product_nodes (factor_graphs bins)) df ↔
          Forall (row_in_range bins) df) as Hrange.
  { apply Forall_iff. intros r. apply row_key_in_script_nodes. }
  split.
  - rewrite <- Hrange. split.
    + intros [res Hres]. by apply aggregate_inr_inv in Hres as [Hdf _].
    + intros Hdf. eexists. by apply aggregate_value.
  - intros Y Zs Hres. apply aggregate_inr_inv in Hres as [_ Heq].
    pose proof (f_equal fst Heq) as HY. pose proof (f_equal snd Heq) as HZ.
    cbn [fst snd nodes] in HY, HZ. subst Y Zs. split; [done|].
    by rewrite length_fmap, script_graph_order.
Qed.

Lemma df_to_data_script_graph_witness :
  ∃ G : Graph unit,
    cartesian_product (factor_graphs 1) = inr G ∧
    ((∃ res, df_to_data G [mkRow 0 0 52 6 23; mkRow 0 0 1 0 0] = inr res) ↔
     Forall (row_in_range 1) [mkRow 0 0 52 6 23; mkRow 0 0 1 0 0]) ∧
    ((∃ res, df_to_data G [mkRow 0 0 53 0 0] = inr res) ↔
     Forall (row_in_range 1) [mkRow 0 0 53 0 0]).
Proof.
  eexists. split; [reflexivity|]. split.
  - exact (proj1 (df_to_data_script_graph 1 _ _ eq_refl)).
  - exact (proj1 (df_to_data_script_graph 1 _ _ eq_refl)).
Defined.

(** A row of ISO week 53, or with the bin code -1 that pandas gives a
    missing value, is outside the graph. *)
Example week_53_out_of_range bins : ¬ row_in_range bins (mkRow 0 0 53 0 0).
Proof. unfold row_in_range. simpl. lia. Qed.

Example missing_bin_out_of_range bins : ¬ row_in_range bins (mkRow (-1) 0 1 0 0).
Proof. unfold row_in_range. simpl. lia. Qed.

(** ** The figures *)

(** The entry [p] of [[g j k for k in range(H) for j in range(D)]]: the
    first loop is the outer one. *)
Lemma comprehension_lookup {B} (g : nat → nat → B) (H D p : nat) :
  p < H * D →
  (k ← seq 0 H; j ← seq 0 D; [g j k]) !! p = Some (g (p mod D) (p / D)).
Proof.
  intros Hp. assert (0 < D) as HD by (destruct D; lia).
  pose proof (Nat.div_mod_eq p D) as Hdm.
  pose proof (Nat.mod_upper_bound p D ltac:(lia)) as Hmod.
  assert (p / D < H) as Hdiv by (apply Nat.Div0.div_lt_upper_bound; lia).
  replace p with (p / D * D + p mod D) at 1 by lia.
  rewrite (lookup_bind_uniform _ _ D _ _ (p / D)); [| |by apply lookup_seq_lt|done].
  - replace (p mod D) with (p mod D * 1 + 0) at 1 by lia.
    by rewrite (lookup_bind_uniform _ _ 1 _ _ (p mod D));
      [| |apply lookup_seq_lt|lia].
  - intros k _. rewrite (length_bind_uniform _ _ 1), length_seq; [lia|done].
Qed.

Lemma comprehension_length {B} (g : nat → nat → B) (H D : nat) :
  length (k ← seq 0 H; j ← seq 0 D; [g j k]) = H * D.
Proof.
  rewrite (length_bind_uniform _ _ D), length_seq; [done|].
  intros k _. rewrite (length_bind_uniform _ _ 1), length_seq; [lia|done].
Qed.

Section FigureProperties.
Context {A : Type} (theta : Node → A) (bins : nat).

(** X6: every row of the matrix behind the day/hour figure has
    [24 * 7 = 168] entries, and its entry [p] is the rate of day [p mod 7]
    at hour [p / 7]: the hours are the outer loop.  Read instead as day
    [p / 24] at hour [p mod 24], which is where the figure puts its day
    marks [i * 24], an entry is the right one only at [p = 0] and
    [p = 167]. *)
Theorem day_hour_rows_order :
  Forall (λ row,
            ∃ i loc, i < 52 ∧ loc ∈ nodes (G_location bins) ∧
              length row = 168 ∧
              ∀ p, p < 168 →
                row !! p = Some (theta (stratum_key loc i (p mod 7) (p / 7))))
         (day_hour_rows theta bins) ∧
  ∀ p, p < 168 →
    (p / 24 = p mod 7 ∧ p mod 24 = p / 7) ↔ (p = 0 ∨ p = 167).
Proof.
  split.
  - apply Forall_forall. intros row. unfold day_hour_rows.
    unfold G_week, G_day, G_hour. rewrite !order_cycle.
    intros (i & (loc & ->%list_elem_of_singleton & Hloc)%list_elem_of_bind
              & Hi%elem_of_seq)%list_elem_of_bind.
    exists i, loc. split_and!; [lia|done| |].
    + by rewrite (comprehension_length
                    (λ j k, theta (stratum_key loc i j k)) 24 7).
    + intros p Hp.
      by rewrite (comprehension_lookup
                    (λ j k, theta (stratum_key loc i j k)) 24 7).
  - intros p Hp.
    pose proof (Nat.div_mod_eq p 24). pose proof (Nat.div_mod_eq p 7).
    pose proof (Nat.mod_upper_bound p 24). pose proof (Nat.mod_upper_bound p 7).
    split.
    + intros [H3 H4]. lia.
    + intros [->| ->]; by vm_compute.
Qed.

Lemma day_hour_rows_length :
  length (day_hour_rows theta bins) = 52 * (bins * bins).
Proof.
  unfold day_hour_rows, G_week, G_location. rewrite order_cycle.
  rewrite (length_bind_uniform _ _ (bins * bins)), length_seq; [done|].
  intros i _. rewrite (length_bind_uniform _ _ 1); [|done].
  fold (order (grid_2d_graph bins bins)). rewrite order_grid. lia.
Qed.
End FigureProperties.

Lemma grid_nodes_lookup m n i j :
  i < m → j < n →
  nodes (grid_2d_graph m n) !! (i * n + j) = Some [Z.of_nat i; Z.of_nat j].
Proof.
  intros Hi Hj. unfold grid_2d_graph. cbn [nodes].
  rewrite (lookup_bind_uniform _ _ n _ _ i); [| |by apply lookup_seq_lt|done].
  - replace j with (j * 1 + 0) at 1 by lia.
    by rewrite (lookup_bind_uniform _ _ 1 _ _ j); [| |apply lookup_seq_lt|lia].
  - intros a _. rewrite (length_bind_uniform _ _ 1), length_seq; [lia|done].
Qed.

Section HeatMap.
Context {A B : Type} (theta : Node → A) (mean : list A → B) (bins : nat).

Lemma location_params_length :
  length (location_params theta mean bins) = bins * bins.
Proof.
  unfold location_params, G_location. rewrite length_fmap.
  apply order_grid.
Qed.

Lemma location_params_lookup i j :
  i < bins → j < bins →
  location_params theta mean bins !! (i * bins + j) =
  Some (mean (location_thetas theta [Z.of_nat i; Z.of_nat j])).
Proof.
  intros Hi Hj. unfold location_params, G_location.
  by rewrite list_lookup_fmap, grid_nodes_lookup.
Qed.

(** X7: the reshape of the per-location means succeeds, and the image has
    [bins] rows of [bins] cells; the cell in row [r] (from the top) and
    column [c] is the mean over the weeks, days and hours of the location
    [(bins - 1 - r, c)]: latitude bins decrease downwards, longitude bins
    increase to the right. *)
Theorem heat_map_cells :
  ∃ img, heat_map theta mean bins = Some img ∧
    length img = bins ∧
    ∀ r c, r < bins → c < bins →
      ∃ row, img !! r = Some row ∧ length row = bins ∧
        row !! c =
        Some (mean (location_thetas theta
                      [Z.of_nat (bins - 1 - r); Z.of_nat c])).
Proof.
  unfold heat_map, reshape2.
  rewrite decide_True by apply location_params_length.
  eexists. split; [reflexivity|]. split.
  - by rewrite length_reverse, chunks_length.
  - intros r c Hr Hc. eexists. split_and!.
    + rewrite reverse_lookup by (rewrite chunks_length; lia).
      rewrite chunks_length. apply chunks_lookup. lia.
    + rewrite length_take, length_drop, location_params_length.
      assert ((bins - S r) * bins + bins ≤ bins * bins) as Hle.
      { replace ((bins - S r) * bins + bins) with ((bins - r) * bins) by nia.
        apply Nat.mul_le_mono_r. lia. }
      lia.
    + rewrite lookup_take_lt by done. rewrite lookup_drop.
      replace (bins - 1 - r) with (bins - S r) by lia.
      apply location_params_lookup; lia.
Qed.
End HeatMap.

(** ** The strata read by the figures *)

Lemma join_singleton_list {A} (l : list A) : mjoin [l] = l.
Proof. simpl. apply app_nil_r. Qed.

Lemma fmap_bind_singleton {A B} (f : A → B) (l : list A) :
  f <$> l = l ≫= (λ x, [f x]).
Proof. induction l as [|x l IH]; [done|]. by rewrite fmap_cons, bind_cons, IH. Qed.

Lemma cycle_nodes_NoDup n : NoDup (nodes (cycle_graph n)).
Proof.
  unfold cycle_graph. cbn [nodes]. apply NoDup_fmap_2_strong; [|apply NoDup_seq].
  intros i j _ _ [= Hij]. lia.
Qed.

Lemma grid_nodes_NoDup m n : NoDup (nodes (grid_2d_graph m n)).
Proof.
  unfold grid_2d_graph. cbn [nodes]. apply NoDup_bind; [| |apply NoDup_seq].
  - intros a1 a2 z _ _
      (b1 & ->%list_elem_of_singleton & _)%list_elem_of_bind
      (b2 & [= Ha _]%list_elem_of_singleton & _)%list_elem_of_bind. lia.
  - intros a _. apply NoDup_bind; [| |apply NoDup_seq].
    + intros b1 b2 z _ _ ->%list_elem_of_singleton [= Hb]%list_elem_of_singleton.
      lia.
    + intros b _. apply NoDup_singleton.
Qed.

Lemma script_nodes_NoDup bins : NoDup (product_nodes (factor_graphs bins)).
Proof.
  apply (product_nodes_NoDup [2; 1; 1; 1]).
  - unfold factor_graphs, has_arities. repeat apply Forall2_cons_2.
    + apply Forall_forall. by intros z (a & b & _ & _ & ->)%elem_of_grid_nodes.
    + apply Forall_fmap, Forall_true. done.
    + apply Forall_fmap, Forall_true. done.
    + apply Forall_fmap, Forall_true. done.
    + apply Forall2_nil_2.
  - unfold factor_graphs. repeat apply Forall_cons_2;
      [apply grid_nodes_NoDup|apply cycle_nodes_NoDup..|apply Forall_nil_2].
Qed.

Section FigureKeys.
Context (bins : nat).

Abbreviation key_of := (λ key : Node, key).

Lemma location_keys_join :
  mjoin (location_thetas key_of <$> nodes (G_location bins)) =
  product_nodes (factor_graphs bins).
Proof.
  rewrite product_nodes_script, list_join_bind, list_fmap_bind. done.
Qed.

Lemma week_keys_join :
  mjoin (week_rows key_of bins) ≡ₚ product_nodes (factor_graphs bins).
Proof.
  rewrite product_nodes_script. unfold week_rows.
  assert (mjoin
            (j ← seq 0 (order G_day); k ← seq 0 (order G_hour);
             loc ← nodes (G_location bins);
             [(λ i, stratum_key loc i j k) <$> seq 0 (order G_week)]) =
          (j ← seq 0 (order G_day); k ← seq 0 (order G_hour);
           loc ← nodes (G_location bins); i ← seq 0 (order G_week);
           [stratum_key loc i j k])) as ->.
  { rewrite join_bind_list. apply list_bind_ext; [|done]. intros j.
    rewrite join_bind_list. apply list_bind_ext; [|done]. intros k.
    rewrite join_bind_list. apply list_bind_ext; [|done]. intros loc.
    by rewrite join_singleton_list, fmap_bind_singleton. }
  etrans.
  { apply bind_perm_ext. intros j. apply bind_swap. }
  etrans; [apply bind_swap|].
  apply bind_perm_ext. intros loc.
  etrans.
  { apply bind_perm_ext. intros j. apply bind_swap. }
  apply bind_swap.
Qed.

Lemma day_hour_keys_join :
  mjoin (day_hour_rows key_of bins) ≡ₚ product_nodes (factor_graphs bins).
Proof.
  rewrite product_nodes_script. unfold day_hour_rows.
  assert (mjoin
            (i ← seq 0 (order G_week); loc ← nodes (G_location bins);
             [k ← seq 0 (order G_hour); j ← seq 0 (order G_day);
                [stratum_key loc i j k]]) =
          (i ← seq 0 (order G_week); loc ← nodes (G_location bins);
           k ← seq 0 (order G_hour); j ← seq 0 (order G_day);
           [stratum_key loc i j k])) as ->.
  { rewrite join_bind_list. apply list_bind_ext; [|done]. intros i.
    rewrite join_bind_list. apply list_bind_ext; [|done]. intros loc.
    by rewrite join_singleton_list. }
  etrans; [apply bind_swap|].
  apply bind_perm_ext. intros loc. apply bind_perm_ext. intros i.
  apply bind_swap.
Qed.

(** X8: the keys [loc + (i, j, k)] that the three figures look up are the
    nodes of the product graph, each of them once: the per-location lists
    of the heat map, put one after the other, are [G.nodes()] itself, and
    the matrices of the week figure and of the day/hour figure hold the
    same nodes in another order. *)
Theorem figures_read_every_stratum (G : Graph unit) :
  cartesian_product (factor_graphs bins) = inr G →
  NoDup (nodes G) ∧
  mjoin (location_thetas key_of <$> nodes (G_location bins)) = nodes G ∧
  mjoin (week_rows key_of bins) ≡ₚ nodes G ∧
  mjoin (day_hour_rows key_of bins) ≡ₚ nodes G.
Proof.
  unfold cartesian_product, ret, raise.
  destruct (forallb has_nodes _); [|discriminate]. intros HG.
  assert (G = mkGraph (product_nodes (factor_graphs bins))
                      (product_edges (factor_graphs bins))) as ->
    by congruence.
  clear HG. cbn [nodes]. split_and!.
  - apply script_nodes_NoDup.
  - apply location_keys_join.
  - apply week_keys_join.
  - apply day_hour_keys_join.
Qed.
End FigureKeys.

Lemma figures_read_every_stratum_witness :
  ∃ G : Graph unit,
    cartesian_product (factor_graphs 1) = inr G ∧
    NoDup (nodes G) ∧
    mjoin (day_hour_rows (λ key : Node, key) 1) ≡ₚ nodes G.
Proof.
  eexists. split; [reflexivity|].
  destruct (figures_read_every_stratum 1 _ eq_refl) as (Hnd & _ & _ & Hdh).
  by split.
Defined.

(** ** Rebuilding the product after [set_edge_weight] *)

Lemma fmap_bind_list {A B C} (f : B → C) (g : A → list B) (l : list A) :
  f <$> (l ≫= g) = l ≫= (λ x, f <$> g x).
Proof.
  induction l as [|x l IH]; [done|]. by rewrite !bind_cons, fmap_app, IH.
Qed.

Section Reweighting.
Context {V W : Type} (w : W).

Abbreviation reweight := (λ g : Graph V, set_edge_weight g w).

Lemma product_nodes_reweight (gs : list (Graph V)) :
  product_nodes (reweight <$> gs) = product_nodes gs.
Proof.
  induction gs as [|g gs IH]; [done|].
  rewrite fmap_cons. cbn [product_nodes set_edge_weight nodes]. by rewrite IH.
Qed.

Lemma product_edges_reweight (gs : list (Graph V)) :
  product_edges (reweight <$> gs) =
  (λ e, (e.1.1, e.1.2, w)) <$> product_edges gs.
Proof.
  induction gs as [|g gs IH]; [done|].
  rewrite fmap_cons. cbn [product_edges set_edge_weight nodes edges].
  rewrite IH, product_nodes_reweight, fmap_app. f_equal.
  - rewrite list_fmap_bind, fmap_bind_list.
    apply list_bind_ext; [|done]. intros e. unfold compose.
    rewrite fmap_bind_list. by apply list_bind_ext.
  - rewrite fmap_bind_list. apply list_bind_ext; [|done]. intros n.
    rewrite list_fmap_bind, fmap_bind_list. by apply list_bind_ext.
Qed.

Lemma has_nodes_reweight (gs : list (Graph V)) :
  forallb has_nodes (reweight <$> gs) = forallb has_nodes gs.
Proof. induction gs as [|g gs IH]; [done|]. rewrite fmap_cons. simpl. by rewrite IH. Qed.

(** X9: setting the weight [w] on every factor and building the product
    again gives the earlier product with the weight [w] on every edge: the
    same nodes in the same order, so the vectors [Y, Z] computed against
    the first product stay aligned with the graph passed to [fit], and the
    same edges. *)
Theorem reweighted_product (gs : list (Graph V)) (G : Graph V) :
  cartesian_product gs = inr G →
  cartesian_product (reweight <$> gs) = inr (set_edge_weight G w) ∧
  nodes (set_edge_weight G w) = nodes G ∧
  Forall (λ e, e.2 = w) (edges (set_edge_weight G w)).
Proof.
  unfold cartesian_product, ret, raise. rewrite has_nodes_reweight.
  destruct (forallb has_nodes gs); [|discriminate]. intros HG.
  assert (G = mkGraph (product_nodes gs) (product_edges gs)) as ->
    by congruence.
  split_and!.
  - by rewrite product_nodes_reweight, product_edges_reweight.
  - done.
  - apply Forall_fmap, Forall_true. done.
Qed.
End Reweighting.

Lemma reweighted_product_witness :
  cartesian_product ((λ g, set_edge_weight g 100%Z) <$>
                     [grid_2d_graph 2 2; cycle_graph 3]) =
  inr (set_edge_weight
         (mkGraph (product_nodes [grid_2d_graph 2 2; cycle_graph 3])
                  (product_edges [grid_2d_graph 2 2; cycle_graph 3]))
         100%Z).
Proof.
  exact (proj1 (reweighted_product 100%Z [grid_2d_graph 2 2; cycle_graph 3]
                  _ eq_refl)).
Defined.
